(** * patternsleuth_bind: the C-ABI orchestration layer of UE4SS's signature scanner

    A shallow embedding of [deps/first/patternsleuth_bind/src/lib.rs]:
    - the composite resolution [ps_scan] / [ps_scan_internal], as explicit
      state passing over the caller's [PsScanResults];
    - the raw scans [ps_scan_pattern], [ps_scan_string], [ps_scan_wstring],
      [ps_scan_xref] and [ps_free_results], over a memory made of the
      caller's words and the Rust heap;
    - the named resolution [ps_resolve_single] and [ps_resolve_batch] over
      the resolver registry of the [patternsleuth] crate.

    The [patternsleuth] crate (image reader, scan engine, resolvers) is an
    external collaborator: it enters as Section variables, or as arguments
    holding the outcome it produced. *)

From Stdlib Require Import ZArith Strings.Byte Strings.String Btauto.
From stdpp Require Import base gmap list.

Open Scope Z_scope.

#[global] Instance byte_eq_decision : EqDecision byte := Byte.byte_eq_dec.

(** ** Bytes and C strings *)

(** [0x80 <= c <= 0xBF]: a UTF-8 continuation byte. *)
Definition in_range (lo hi : N) (b : byte) : bool :=
  (lo <=? Byte.to_N b)%N && (Byte.to_N b <=? hi)%N.

Definition cont (b : byte) : bool := in_range 0x80 0xBF b.

(** [str::from_utf8] (used by [CStr::to_str]): the well-formed UTF-8
    sequences of RFC 3629, no overlong forms, no surrogates, nothing above
    U+10FFFF. *)
Fixpoint utf8_valid (bs : list byte) : bool :=
  match bs with
  | [] => true
  | b :: r =>
      if in_range 0x00 0x7F b then utf8_valid r
      else if in_range 0xC2 0xDF b then
        match r with
        | c1 :: r' => cont c1 && utf8_valid r'
        | _ => false
        end
      else if in_range 0xE0 0xEF b then
        match r with
        | c1 :: c2 :: r' =>
            (if in_range 0xE0 0xE0 b then in_range 0xA0 0xBF c1
             else if in_range 0xED 0xED b then in_range 0x80 0x9F c1
             else cont c1) && cont c2 && utf8_valid r'
        | _ => false
        end
      else if in_range 0xF0 0xF4 b then
        match r with
        | c1 :: c2 :: c3 :: r' =>
            (if in_range 0xF0 0xF0 b then in_range 0x90 0xBF c1
             else if in_range 0xF4 0xF4 b then in_range 0x80 0x8F c1
             else cont c1) && cont c2 && cont c3 && utf8_valid r'
        | _ => false
        end
      else false
  end.

(** [CStr::to_str]: the bytes before the NUL, as a [&str] when they are
    UTF-8.  A C string is modelled by those bytes; [None] is a null
    pointer. *)
Definition to_str (bs : list byte) : option (list byte) :=
  if utf8_valid bs then Some bs else None.

(** ** The composite resolution ([ps_scan]) *)

(** [ResolveError] of the resolver library: only its text is carried. *)
Record ResolveError := mkResolveError { err_msg : list byte }.

(** [Result<T, ResolveError>] as the resolvers produce it. *)
Inductive result (A : Type) : Type :=
| Ok (a : A)
| Err (e : ResolveError).
Arguments Ok {A} a.
Arguments Err {A} e.

Definition is_err {A} (r : result A) : bool :=
  match r with Ok _ => false | Err _ => true end.

(** [EngineVersion] (the resolver's output) and [PsEngineVersion] (the
    caller's struct) both carry two [u16]. *)
Record EngineVersion := mkEngineVersion { ev_major : Z; ev_minor : Z }.
Record PsEngineVersion := mkPsEngineVersion { major : Z; minor : Z }.

(** [UE4SSResolution], produced by [impl_collector!]: one result per slot.
    The address-valued resolvers are newtypes over [usize] ([res.0]). *)
Record UE4SSResolution := mkUE4SSResolution {
  r_guobject_array : result Z;
  r_fname_tostring : result Z;
  r_fname_ctor_wchar : result Z;
  r_gmalloc : result Z;
  r_static_construct_object_internal : result Z;
  r_ftext_fstring : result Z;
  r_engine_version : result EngineVersion;
  r_fuobject_hash_tables_get : result Z;
  r_gnatives : result Z;
  r_console_manager_singleton : result Z;
}.

(** [PsScanConfig]. *)
Record PsScanConfig := mkPsScanConfig {
  c_guobject_array : bool;
  c_fname_tostring : bool;
  c_fname_ctor_wchar : bool;
  c_gmalloc : bool;
  c_static_construct_object_internal : bool;
  c_ftext_fstring : bool;
  c_engine_version : bool;
  c_fuobject_hash_tables_get : bool;
  c_gnatives : bool;
  c_console_manager_singleton : bool;
}.

(** [PsScanResults] ([u64] fields as [Z]). *)
Record PsScanResults := mkPsScanResults {
  guobject_array : Z;
  fname_tostring : Z;
  fname_ctor_wchar : Z;
  gmalloc : Z;
  static_construct_object_internal : Z;
  ftext_fstring : Z;
  engine_version : PsEngineVersion;
  fuobject_hash_tables_get : Z;
  gnatives : Z;
  console_manager_singleton : Z;
}.

(** The [$member] argument of the [handle!] macro: the nine address-valued
    members. *)
Inductive Member :=
| GUObjectArray | FNameToString | FNameCtorWchar | GMalloc
| StaticConstructObjectInternal | FTextFString | FUObjectHashTablesGet
| GNatives | ConsoleManagerSingleton.

#[global] Instance Member_eq_dec : EqDecision Member.
Proof. solve_decision. Defined.

Definition all_members : list Member :=
  [GUObjectArray; FNameToString; FNameCtorWchar; GMalloc;
   StaticConstructObjectInternal; FTextFString; FUObjectHashTablesGet;
   GNatives; ConsoleManagerSingleton].

(** [ctx.config.$member]. *)
Definition config_of (m : Member) (c : PsScanConfig) : bool :=
  match m with
  | GUObjectArray => c_guobject_array c
  | FNameToString => c_fname_tostring c
  | FNameCtorWchar => c_fname_ctor_wchar c
  | GMalloc => c_gmalloc c
  | StaticConstructObjectInternal => c_static_construct_object_internal c
  | FTextFString => c_ftext_fstring c
  | FUObjectHashTablesGet => c_fuobject_hash_tables_get c
  | GNatives => c_gnatives c
  | ConsoleManagerSingleton => c_console_manager_singleton c
  end.

(** [resolution.$member]. *)
Definition resolution_of (m : Member) (r : UE4SSResolution) : result Z :=
  match m with
  | GUObjectArray => r_guobject_array r
  | FNameToString => r_fname_tostring r
  | FNameCtorWchar => r_fname_ctor_wchar r
  | GMalloc => r_gmalloc r
  | StaticConstructObjectInternal => r_static_construct_object_internal r
  | FTextFString => r_ftext_fstring r
  | FUObjectHashTablesGet => r_fuobject_hash_tables_get r
  | GNatives => r_gnatives r
  | ConsoleManagerSingleton => r_console_manager_singleton r
  end.

(** Reading [results.$member]. *)
Definition results_of (m : Member) (r : PsScanResults) : Z :=
  match m with
  | GUObjectArray => guobject_array r
  | FNameToString => fname_tostring r
  | FNameCtorWchar => fname_ctor_wchar r
  | GMalloc => gmalloc r
  | StaticConstructObjectInternal => static_construct_object_internal r
  | FTextFString => ftext_fstring r
  | FUObjectHashTablesGet => fuobject_hash_tables_get r
  | GNatives => gnatives r
  | ConsoleManagerSingleton => console_manager_singleton r
  end.

(** The assignment [results.$member = v]: that field changes, the others
    keep their value. *)
Definition set_results (m : Member) (v : Z) (r : PsScanResults) : PsScanResults :=
  let upd m' := if decide (m = m') then v else results_of m' r in
  {| guobject_array := upd GUObjectArray;
     fname_tostring := upd FNameToString;
     fname_ctor_wchar := upd FNameCtorWchar;
     gmalloc := upd GMalloc;
     static_construct_object_internal := upd StaticConstructObjectInternal;
     ftext_fstring := upd FTextFString;
     engine_version := engine_version r;
     fuobject_hash_tables_get := upd FUObjectHashTablesGet;
     gnatives := upd GNatives;
     console_manager_singleton := upd ConsoleManagerSingleton |}.

(** [Vec::is_empty]. *)
Definition is_empty {A} (l : list A) : bool :=
  match l with [] => true | _ :: _ => false end.

(** The state [ps_scan_internal] threads after the resolution: the
    caller's [results] and the local [errors : ScanErrors]. *)
Record ScanState := mkScanState {
  st_results : PsScanResults;
  st_errors : list ResolveError;
}.

(** One expansion of [handle!($member, $name, $lua, $optional)]. *)
Definition handle (cfg : PsScanConfig) (resolution : UE4SSResolution)
    (m : Member) (optional : bool) (st : ScanState) : ScanState :=
  if config_of m cfg then
    match resolution_of m resolution with
    | Ok res => {| st_results := set_results m res (st_results st);
                   st_errors := st_errors st |}
    | Err err => {| st_results := set_results m 0 (st_results st);
                    st_errors := if negb optional then st_errors st ++ [err]
                                 else st_errors st |}
    end
  else st.

(** The [if ctx.config.engine_version { ... }] block. *)
Definition handle_engine_version (cfg : PsScanConfig) (resolution : UE4SSResolution)
    (st : ScanState) : ScanState :=
  if c_engine_version cfg then
    match r_engine_version resolution with
    | Ok res =>
        let r := st_results st in
        {| st_results :=
             {| guobject_array := guobject_array r;
                fname_tostring := fname_tostring r;
                fname_ctor_wchar := fname_ctor_wchar r;
                gmalloc := gmalloc r;
                static_construct_object_internal := static_construct_object_internal r;
                ftext_fstring := ftext_fstring r;
                engine_version := {| major := ev_major res; minor := ev_minor res |};
                fuobject_hash_tables_get := fuobject_hash_tables_get r;
                gnatives := gnatives r;
                console_manager_singleton := console_manager_singleton r |};
           st_errors := st_errors st |}
    | Err err => {| st_results := st_results st; st_errors := st_errors st ++ [err] |}
    end
  else st.

(** [ps_scan_internal]. [read_image] is the outcome of
    [patternsleuth::process::internal::read_image()], [resolve] that of
    [exe.resolve(UE4SSResolution::resolver())]; [None] is an [Err] that the
    [?] operator returns early.  The result is [Ok(())] ([true]) or [Err]
    ([false]), with the caller's [results] after the call. *)
Definition ps_scan_internal {Exe : Type} (cfg : PsScanConfig)
    (read_image : option Exe) (resolve : Exe -> option UE4SSResolution)
    (results : PsScanResults) : bool * PsScanResults :=
  match read_image with
  | None => (false, results)
  | Some exe =>
      match resolve exe with
      | None => (false, results)
      | Some resolution =>
          let h := handle cfg resolution in
          let st0 := {| st_results := results; st_errors := [] |} in
          let st := handle_engine_version cfg resolution st0 in
          let st := h GUObjectArray false st in
          let st := h GMalloc false st in
          let st := h FNameToString false st in
          let st := h FNameCtorWchar false st in
          let st := h StaticConstructObjectInternal false st in
          let st := h FTextFString true st in
          let st := h FUObjectHashTablesGet true st in
          let st := h GNatives true st in
          let st := h ConsoleManagerSingleton true st in
          (is_empty (st_errors st), st_results st)
      end
  end.

(** [ps_scan]: [true] exactly when [ps_scan_internal] returned [Ok]. *)
Definition ps_scan {Exe : Type} (cfg : PsScanConfig)
    (read_image : option Exe) (resolve : Exe -> option UE4SSResolution)
    (results : PsScanResults) : bool * PsScanResults :=
  let '(ok, results') := ps_scan_internal cfg read_image resolve results in
  (if ok then true else false, results').

(** ** The raw scans *)

(** A section of the image: [section.address()] and [section.data()]. *)
Record Section := mkSection { address : Z; data : list byte }.

(** [exe.memory.sections()], in the Image Provider's order. *)
Definition Image := list Section.

(** A compiled [patternsleuth_scanner::Pattern]: signature bytes and mask. *)
Record Pattern := mkPattern { sig : list byte; mask : list byte }.

(** [patternsleuth_scanner::Xref]. *)
Record Xref := mkXref { xref_target : Z }.

(** Modelled from the spec: [Pattern::from_bytes] of the scanner crate (not
    in this repository's sources). It compiles the bytes into an exact-match
    pattern with no wildcards; a zero-length pattern is invalid and is
    refused. *)
Definition Pattern_from_bytes (bs : list byte) : option Pattern :=
  match bs with
  | [] => None
  | _ :: _ => Some {| sig := bs; mask := repeat Byte.xff (length bs) |}
  end.

(** [x as u8]: the low eight bits of [x]. *)
Definition byte_of_Z (x : Z) : byte :=
  match Byte.of_N (Z.to_N (x mod 256)) with Some b => b | None => Byte.x00 end.

(** [u16::to_le_bytes]. *)
Definition u16_to_le_bytes (c : Z) : list byte :=
  [byte_of_Z (Z.land c 255); byte_of_Z (Z.shiftr c 8)].

(** A [Vec<u64>]: its elements and the capacity of its allocation. *)
Record Vec := mkVec { vec_elems : list Z; vec_cap : nat }.

(** [Vec::new()]: no allocation. *)
Definition Vec_new : Vec := mkVec [] 0.

(** [RawVec::grow_amortized] behind [reserve(additional)]: nothing when the
    room left suffices, otherwise the largest of twice the capacity, the
    required length and the minimum non-zero capacity, [4] for elements of
    eight bytes. *)
Definition grow_amortized (cap len additional : nat) : nat :=
  if (len + additional <=? cap)%nat then cap
  else Nat.max (Nat.max (2 * cap) (len + additional)) 4.

(** [Vec::extend] with the exact-size iterator
    [scan_results[0].iter().map(..)]: one [reserve] for its length, then
    the elements at the end. *)
Definition Vec_extend (v : Vec) (xs : list Z) : Vec :=
  mkVec (vec_elems v ++ xs) (grow_amortized (vec_cap v) (length (vec_elems v)) (length xs)).

(** The caller's memory and the Rust heap.  [words] are the caller's cells
    the out-parameters point to (address [0] is null); [blocks] are the
    live [Vec<u64>] allocations, by their (non-null) address; [brk] is where
    the allocator places the next one. *)
Record Mem := mkMem {
  words : gmap Z Z;
  blocks : gmap positive Vec;
  brk : positive;
}.

Definition is_null (p : Z) : bool := p =? 0.

(** [*p = v] through a caller pointer. *)
Definition write (p v : Z) (m : Mem) : Mem :=
  {| words := <[p := v]> (words m); blocks := blocks m; brk := brk m |}.

(** The [unsafe] block that ends each raw scan: write the length, then a
    null pointer for an empty result, or hand the [Vec]'s buffer over
    ([as_mut_ptr] followed by [mem::forget]). *)
Definition hand_off (all_results : Vec) (results count : Z) (m : Mem) : Mem :=
  let m := write count (Z.of_nat (length (vec_elems all_results))) m in
  if is_empty (vec_elems all_results) then write results 0 m
  else
    let buffer := brk m in
    let m := {| words := words m;
                blocks := <[buffer := all_results]> (blocks m);
                brk := (buffer + Pos.of_nat (S (vec_cap all_results)))%positive |} in
    write results (Zpos buffer) m.

(** What the caller reads through a buffer pointer of length [count]: the
    null pointer reads as the empty sequence. *)
Definition buffer_of (m : Mem) (p : Z) : option (list Z) :=
  match p with
  | Z0 => Some []
  | Zpos q => vec_elems <$> blocks m !! q
  | Zneg _ => None
  end.

(** [scan_results[0]]: the engine returns one sequence per specification,
    so with one specification the index is in range. *)
Definition first_results (rs : list (list Z)) : list Z :=
  match rs with r :: _ => r | [] => [] end.

Section RawScans.

(** The scan engine of [patternsleuth_scanner], per specification:
    the match addresses of a pattern, or the referencing addresses of a
    target, in a region with a base address. *)
Variable scan_one : Pattern -> Z -> list byte -> list Z.
Variable xref_one : Xref -> Z -> list byte -> list Z.
(** [Pattern::new]: parsing the textual hex-with-wildcards notation. *)
Variable Pattern_new : list byte -> option Pattern.

(** [patternsleuth_scanner::scan_pattern]: one result per pattern. *)
Definition scan_pattern (patterns : list Pattern) (base : Z) (bytes : list byte)
  : list (list Z) :=
  map (fun p => scan_one p base bytes) patterns.

(** [patternsleuth_scanner::scan_xref]: one result per target. *)
Definition scan_xref (xrefs : list Xref) (base : Z) (bytes : list byte)
  : list (list Z) :=
  map (fun x => xref_one x base bytes) xrefs.

(** The [for section in exe.memory.sections()] loop with a pattern. *)
Definition collect_pattern (pattern : Pattern) (exe : Image) : Vec :=
  fold_left (fun all_results section =>
               Vec_extend all_results (first_results
                 (scan_pattern [pattern] (address section) (data section))))
            exe Vec_new.

(** The same loop with an xref target. *)
Definition collect_xref (xref : Xref) (exe : Image) : Vec :=
  fold_left (fun all_results section =>
               Vec_extend all_results (first_results
                 (scan_xref [xref] (address section) (data section))))
            exe Vec_new.

(** [ps_scan_pattern]. [pattern_str] is the C string ([None]: null). *)
Definition ps_scan_pattern (read_image : option Image) (pattern_str : option (list byte))
    (results count : Z) (m : Mem) : bool * Mem :=
  match pattern_str with
  | None => (false, m)
  | Some pattern_str =>
      if is_null results || is_null count then (false, m) else
      match to_str pattern_str with
      | None => (false, m)
      | Some pattern_str =>
          match Pattern_new pattern_str with
          | None => (false, m)
          | Some pattern =>
              match read_image with
              | None => (false, m)
              | Some exe => (true, hand_off (collect_pattern pattern exe) results count m)
              end
          end
      end
  end.

(** [ps_scan_string]. *)
Definition ps_scan_string (read_image : option Image) (search_str : option (list byte))
    (results count : Z) (m : Mem) : bool * Mem :=
  match search_str with
  | None => (false, m)
  | Some search_bytes =>
      if is_null results || is_null count then (false, m) else
      match Pattern_from_bytes search_bytes with
      | None => (false, m)
      | Some pattern =>
          match read_image with
          | None => (false, m)
          | Some exe => (true, hand_off (collect_pattern pattern exe) results count m)
          end
      end
  end.

(** The [while *search_str.add(len) != 0] loop over the readable code
    units from the pointer on. *)
Fixpoint wstr_len (units : list Z) : nat :=
  match units with
  | [] => 0
  | u :: rest => if u =? 0 then 0 else S (wstr_len rest)
  end.

(** [ps_scan_wstring]. [search_str] is the memory from the pointer on, as
    [u16] code units (terminator included); [None] is a null pointer. *)
Definition ps_scan_wstring (read_image : option Image) (search_str : option (list Z))
    (results count : Z) (m : Mem) : bool * Mem :=
  match search_str with
  | None => (false, m)
  | Some units =>
      if is_null results || is_null count then (false, m) else
      let len := wstr_len units in
      let search_slice := take len units in
      let search_bytes := flat_map u16_to_le_bytes search_slice in
      match Pattern_from_bytes search_bytes with
      | None => (false, m)
      | Some pattern =>
          match read_image with
          | None => (false, m)
          | Some exe => (true, hand_off (collect_pattern pattern exe) results count m)
          end
      end
  end.

(** [ps_scan_xref]. *)
Definition ps_scan_xref (read_image : option Image) (target_address : Z)
    (results count : Z) (m : Mem) : bool * Mem :=
  if is_null results || is_null count then (false, m) else
  match read_image with
  | None => (false, m)
  | Some exe =>
      let xref := {| xref_target := target_address |} in
      (true, hand_off (collect_xref xref exe) results count m)
  end.

End RawScans.

(** [ps_free_results]: [Vec::from_raw_parts(results, count, count)] and its
    drop.  [None] is undefined behaviour: a pointer that is not a live
    buffer whose length and capacity are both [count]. *)
Definition ps_free_results (results : Z) (count : nat) (m : Mem) : option Mem :=
  if negb (is_null results) && (0 <? count)%nat then
    match results with
    | Zpos q =>
        match blocks m !! q with
        | Some buf =>
            if decide (length (vec_elems buf) = count /\ vec_cap buf = count) then
              Some {| words := words m; blocks := delete q (blocks m); brk := brk m |}
            else None
        | None => None
        end
    | _ => None
    end
  else Some m.

(** ** Named resolution through the resolver registry *)

(** What a successful resolver yields ([Arc<dyn Resolution>]):
    [get()] is its address when it has one. *)
Record Resolution := mkResolution { get : option Z }.

(** An entry of [resolvers()]: its [name] and its [getter], named by an
    identifier of the resolver library. *)
Record ResolverEntry := mkResolverEntry { name : list byte; getter : nat }.

(** What the named-resolution functions ask of the image: reading it, and
    running the resolver library over it. *)
Inductive Event :=
| ReadImage
| ResolveMany (getters : list nat).

(** [str::as_ptr]: where the UTF-8 data of a Rust string starts.  A [&str]
    keeps its length beside the pointer, so no NUL terminator follows the
    data; the pointer alone designates only the data's first byte. *)
Record StrPtr := mkStrPtr { str_data : list byte }.

Definition as_ptr (s : list byte) : StrPtr := mkStrPtr s.

(** The bytes up to the first NUL: what [CStr::from_ptr] or C's [%s]
    takes from the bytes found at a pointer. *)
Fixpoint c_bytes (bs : list byte) : list byte :=
  match bs with
  | [] => []
  | b :: rest => if decide (b = x00) then [] else b :: c_bytes rest
  end.

(** A C reader of a [StrPtr]: the data, then the bytes [following] it in
    memory, up to the first NUL. *)
Definition c_read (p : StrPtr) (following : list byte) : list byte :=
  c_bytes (str_data p ++ following).

Section Registry.

(** [resolvers()], in registry order. *)
Variable resolvers : list ResolverEntry.
(** The outcome of one getter over an image. *)
Variable resolve_one : Image -> nat -> result Resolution.

(** [exe.resolve_many(&getters)]: one outcome per getter, in order. *)
Definition resolve_many (exe : Image) (getters : list nat) : list (result Resolution) :=
  map (resolve_one exe) getters.

(** [resolvers().find(|r| r.name == name)]. *)
Definition find_resolver (n : list byte) : option ResolverEntry :=
  List.find (fun r => bool_decide (name r = n)) resolvers.

(** [res.get().unwrap_or(0)] of an outcome, [0] for an [Err]. *)
Definition addr_of (r : result Resolution) : Z :=
  match r with
  | Ok res => default 0 (get res)
  | Err _ => 0
  end.

(** [ps_resolve_single], with the events it causes. *)
Definition ps_resolve_single (read_image : option Image)
    (resolver_name : option (list byte)) : Z * list Event :=
  match resolver_name with
  | None => (0, [])
  | Some bs =>
      match to_str bs with
      | None => (0, [])
      | Some n =>
          match find_resolver n with
          | None => (0, [])
          | Some resolver =>
              match read_image with
              | None => (0, [ReadImage])
              | Some exe =>
                  let results := resolve_many exe [getter resolver] in
                  ((match results with
                    | r :: _ => addr_of r
                    | [] => 0
                    end), [ReadImage; ResolveMany [getter resolver]])
              end
          end
      end
  end.

(** The [loop] collecting [(i, s)] for each non-null pointer of the
    null-terminated array whose string is UTF-8.  The array is given by
    its readable elements ([None]: a null pointer). *)
Fixpoint collect_names (i : nat) (ptrs : list (option (list byte)))
  : list (nat * list byte) :=
  match ptrs with
  | [] => []
  | None :: _ => []
  | Some bs :: rest =>
      match to_str bs with
      | Some s => (i, s) :: collect_names (S i) rest
      | None => collect_names (S i) rest
      end
  end.

(** The body of the [for (idx, name) in &names] loop: a known name adds
    its getter and index, an unknown one gets [*results.add(idx) = 0]. *)
Definition split_known_step (acc : list nat * list nat * gmap nat Z)
    (p : nat * list byte) : list nat * list nat * gmap nat Z :=
  let '(resolver_getters, resolver_indices, out) := acc in
  let '(idx, n) := p in
  match find_resolver n with
  | Some resolver =>
      (resolver_getters ++ [getter resolver], resolver_indices ++ [idx], out)
  | None => (resolver_getters, resolver_indices, <[idx := 0]> out)
  end.

(** The loop itself, from empty [resolver_getters] and [resolver_indices]. *)
Definition split_known (names : list (nat * list byte)) (out : gmap nat Z)
  : list nat * list nat * gmap nat Z :=
  fold_left split_known_step names ([], [], out).

(** The [for (idx, resolution) in resolver_indices.iter().zip(..)] loop. *)
Definition fill_results (indexed : list (nat * result Resolution)) (out : gmap nat Z)
  : gmap nat Z :=
  fold_left (fun out p => let '(idx, resolution) := p in <[idx := addr_of resolution]> out)
            indexed out.

(** [ps_resolve_batch]. The output array is the caller's cells by index;
    a cell absent from the map holds what the caller left there.  [None]
    is a null pointer. *)
Definition ps_resolve_batch (read_image : option Image)
    (resolver_names : option (list (option (list byte))))
    (results : option (gmap nat Z)) : nat * option (gmap nat Z) :=
  match resolver_names, results with
  | Some ptrs, Some out =>
      match read_image with
      | None => (0%nat, Some out)
      | Some exe =>
          let names := collect_names 0 ptrs in
          let '(resolver_getters, resolver_indices, out) := split_known names out in
          let batch_results := resolve_many exe resolver_getters in
          let out := fill_results (zip resolver_indices batch_results) out in
          (length names, Some out)
      end
  | _, _ => (0%nat, results)
  end.

(** [std::ptr::copy_nonoverlapping(src, dst, len)] into the caller's array,
    index by index from [i]; no bound on the caller's side is checked. *)
Fixpoint copy_nonoverlapping {A} (i : nat) (src : list A) (dst : gmap nat A) : gmap nat A :=
  match src with
  | [] => dst
  | x :: rest => copy_nonoverlapping (S i) rest (<[i := x]> dst)
  end.

(** [ps_get_resolver_names]. A [*const i8] written to [names] is
    [r.name.as_ptr()] of the registry's [&'static str]: a pointer to its
    data, with no terminator ([StrPtr]); [None] is a null pointer. Returns
    the [bool], then the caller's [names] array and [*count]. *)
Definition ps_get_resolver_names (names : option (gmap nat StrPtr))
    (count : option nat) : bool * option (gmap nat StrPtr) * option nat :=
  match names, count with
  | Some out, Some _ =>
      let resolver_list := map (fun r => as_ptr (name r)) resolvers in
      (true, Some (copy_nonoverlapping 0 resolver_list out), Some (length resolver_list))
  | _, _ => (false, names, count)
  end.

(** [ps_resolver_exists]: [resolvers().any(|r| r.name == s)]. *)
Definition ps_resolver_exists (resolver_name : option (list byte)) : bool :=
  match resolver_name with
  | None => false
  | Some bs =>
      match to_str bs with
      | Some s => existsb (fun r => bool_decide (name r = s)) resolvers
      | None => false
      end
  end.

End Registry.

(** ** Readings of the claims *)

(** The optional slots as the specification lists them. *)
Definition claimed_optional (m : Member) : bool :=
  match m with
  | FTextFString | FUObjectHashTablesGet | GNatives | ConsoleManagerSingleton => true
  | _ => false
  end.

(** The value [handle!] stores in [results.$member]: the address, or [0]
    on failure. *)
Definition written (m : Member) (r : UE4SSResolution) : Z :=
  match resolution_of m r with Ok a => a | Err _ => 0 end.

(** Sample inputs of the composite resolution. *)
Definition cfg_all : PsScanConfig :=
  mkPsScanConfig true true true true true true true true true true.

Definition cfg_engine_version_only : PsScanConfig :=
  mkPsScanConfig false false false false false false true false false false.

Definition not_found : ResolveError := mkResolveError [].

(** Every mandatory slot found, the four slots [handle!] marks optional
    not found. *)
Definition resolution_optional_fail : UE4SSResolution :=
  mkUE4SSResolution (Ok 4096) (Ok 8192) (Ok 12288) (Ok 16384) (Ok 20480)
    (Err not_found) (Ok (mkEngineVersion 4 27)) (Err not_found) (Err not_found)
    (Err not_found).

Definition resolution_all_fail : UE4SSResolution :=
  mkUE4SSResolution (Err not_found) (Err not_found) (Err not_found) (Err not_found)
    (Err not_found) (Err not_found) (Err not_found) (Err not_found) (Err not_found)
    (Err not_found).

(** A results struct the caller filled before the call. *)
Definition results_prefilled : PsScanResults :=
  mkPsScanResults 1 1 1 1 1 1 (mkPsEngineVersion 4 27) 1 1 1.

(** What a raw scan hands the caller: the count cell holds the length and
    the results cell a pointer through which the caller reads [all]. *)
Definition hands_over (m : Mem) (results count : Z) (all : list Z) : Prop :=
  words m !! count = Some (Z.of_nat (length all)) /\
  exists p, words m !! results = Some p /\ buffer_of m p = Some all.

(** The shape the four raw scans share: when the search specification
    compiled and the image was read, hand over what the section loop
    collected; otherwise fail with the memory untouched. *)
Definition scan_shape {Spec : Type} (collect : Spec -> Image -> Vec)
    (spec : option Spec) (read_image : option Image) (results count : Z) (m : Mem)
  : bool * Mem :=
  match spec, read_image with
  | Some sp, Some exe => (true, hand_off (collect sp exe) results count m)
  | _, _ => (false, m)
  end.

(** The compiled specification of each raw scan ([None]: an input check
    failed before the image is read). *)
Definition compiled_pattern (Pattern_new : list byte -> option Pattern)
    (pattern_str : option (list byte)) (results count : Z) : option Pattern :=
  match pattern_str with
  | Some s => if is_null results || is_null count then None else to_str s ≫= Pattern_new
  | None => None
  end.

Definition compiled_string (search_str : option (list byte)) (results count : Z)
  : option Pattern :=
  match search_str with
  | Some s => if is_null results || is_null count then None else Pattern_from_bytes s
  | None => None
  end.

Definition compiled_wstring (search_str : option (list Z)) (results count : Z)
  : option Pattern :=
  match search_str with
  | Some u =>
      if is_null results || is_null count then None
      else Pattern_from_bytes (flat_map u16_to_le_bytes (take (wstr_len u) u))
  | None => None
  end.

Definition compiled_xref (target_address : Z) (results count : Z) : option Xref :=
  if is_null results || is_null count then None
  else Some {| xref_target := target_address |}.

(** The concatenation, in section order, of the engine's per-section
    results for one specification. *)
Definition concat_sections {Spec : Type} (engine : Spec -> Z -> list byte -> list Z)
    (sp : Spec) (exe : Image) : list Z :=
  concat (map (fun section => engine sp (address section) (data section)) exe).

(** A memory with one live buffer of three addresses, capacity four, at [1]. *)
Definition sample_mem : Mem :=
  {| words := ∅; blocks := {[ 1%positive := mkVec [4096; 8192; 12288] 4 ]};
     brk := 6%positive |}.

(** An empty memory: no caller cells written yet, no live buffer. *)
Definition empty_mem : Mem := {| words := ∅; blocks := ∅; brk := 1%positive |}.

(** A scan engine reporting one match at the start of every region. *)
Definition one_match_engine (_ : Pattern) (base : Z) (_ : list byte) : list Z := [base].

(** A compiled pattern and a one-section image. *)
Definition one_match_pattern : Pattern := mkPattern [x41] [xff].
Definition one_match_image : Image := [mkSection 4096 [x41]].

(** The names the registry knows, with their entries, in input order. *)
Definition known_entries (resolvers : list ResolverEntry) (names : list (nat * list byte))
  : list (nat * ResolverEntry) :=
  omap (fun p => (fun r => (p.1, r)) <$> find_resolver resolvers p.2) names.

(** The zeros the first loop writes at the unknown names' indices. *)
Definition unknown_zeros (resolvers : list ResolverEntry) (names : list (nat * list byte))
    (out : gmap nat Z) : gmap nat Z :=
  fold_left (fun o p => match find_resolver resolvers p.2 with
                        | Some _ => o
                        | None => <[p.1 := 0]> o
                        end) names out.

(** The address a name should get: [0] when unknown, else what its
    resolver yields ([0] on failure). *)
Definition expected_addr (resolvers : list ResolverEntry)
    (resolve_one : Image -> nat -> result Resolution) (exe : Image) (n : list byte) : Z :=
  match find_resolver resolvers n with
  | None => 0
  | Some r => addr_of (resolve_one exe (getter r))
  end.

(** A registry of two resolvers: [GMalloc] finds [4096], [GUObjectArray]
    fails. *)
Definition sample_resolvers : list ResolverEntry :=
  [mkResolverEntry (list_byte_of_string "GMalloc") 1;
   mkResolverEntry (list_byte_of_string "GUObjectArray") 2].

Definition sample_resolve (_ : Image) (g : nat) : result Resolution :=
  if Nat.eqb g 1 then Ok (mkResolution (Some 4096)) else Err not_found.

(** * Proofs *)

(** ** The composite resolution *)

Lemma is_empty_app {A} (l1 l2 : list A) :
  is_empty (l1 ++ l2) = is_empty l1 && is_empty l2.
Proof. destruct l1; reflexivity. Qed.

Lemma handle_errors_empty cfg r m opt st :
  is_empty (st_errors (handle cfg r m opt st)) =
  is_empty (st_errors st) &&
  negb (config_of m cfg && negb opt && is_err (resolution_of m r)).
Proof.
  unfold handle.
  destruct (config_of m cfg), (resolution_of m r), opt; simpl;
    rewrite ?is_empty_app, ?andb_true_r; reflexivity.
Qed.

Lemma handle_engine_version_errors_empty cfg r st :
  is_empty (st_errors (handle_engine_version cfg r st)) =
  is_empty (st_errors st) &&
  negb (c_engine_version cfg && is_err (r_engine_version r)).
Proof.
  unfold handle_engine_version.
  destruct (c_engine_version cfg), (r_engine_version r); simpl;
    rewrite ?is_empty_app, ?andb_true_r; reflexivity.
Qed.

Lemma results_of_set_results m v r m' :
  results_of m' (set_results m v r) =
  if bool_decide (m = m') then v else results_of m' r.
Proof.
  rewrite bool_decide_decide.
  destruct m'; simpl; destruct (decide _); reflexivity.
Qed.

Lemma handle_results_of cfg r m opt st m' :
  results_of m' (st_results (handle cfg r m opt st)) =
  if config_of m cfg && bool_decide (m = m') then written m r
  else results_of m' (st_results st).
Proof.
  unfold handle, written.
  destruct (config_of m cfg); simpl; [|reflexivity].
  destruct (resolution_of m r); simpl; apply results_of_set_results.
Qed.

Lemma handle_engine_version_of cfg r m opt st :
  engine_version (st_results (handle cfg r m opt st)) = engine_version (st_results st).
Proof.
  unfold handle. destruct (config_of m cfg), (resolution_of m r); reflexivity.
Qed.

Lemma handle_engine_version_results_of cfg r st m' :
  results_of m' (st_results (handle_engine_version cfg r st)) =
  results_of m' (st_results st).
Proof.
  unfold handle_engine_version.
  destruct (c_engine_version cfg), (r_engine_version r); [destruct m'|..]; reflexivity.
Qed.

Lemma fst_ps_scan {Exe} cfg (read_image : option Exe) resolve results :
  fst (ps_scan cfg read_image resolve results) =
  fst (ps_scan_internal cfg read_image resolve results).
Proof.
  unfold ps_scan. destruct (ps_scan_internal _ _ _ _) as [[] ?]; reflexivity.
Qed.

Lemma snd_ps_scan {Exe} cfg (read_image : option Exe) resolve results :
  snd (ps_scan cfg read_image resolve results) =
  snd (ps_scan_internal cfg read_image resolve results).
Proof.
  unfold ps_scan. destruct (ps_scan_internal _ _ _ _) as [[] ?]; reflexivity.
Qed.

(** After a scan that ran, the overall verdict as one boolean. *)
Lemma ps_scan_internal_verdict {Exe} cfg (read_image : option Exe) resolve exe r results :
  read_image = Some exe -> resolve exe = Some r ->
  fst (ps_scan_internal cfg read_image resolve results) =
  negb (c_engine_version cfg && is_err (r_engine_version r)) &&
  forallb (fun m => negb (config_of m cfg && negb (claimed_optional m)
                          && is_err (resolution_of m r))) all_members.
Proof.
  intros -> Hr. unfold ps_scan_internal. rewrite Hr. cbv zeta. simpl fst.
  rewrite !handle_errors_empty, handle_engine_version_errors_empty. simpl.
  rewrite ?andb_true_r. btauto.
Qed.

(** After a scan that ran, each address slot holds what [handle!] wrote
    when it is requested, and its old value otherwise. *)
Lemma ps_scan_internal_results_of {Exe} cfg (read_image : option Exe) resolve exe r
    results m :
  read_image = Some exe -> resolve exe = Some r ->
  results_of m (snd (ps_scan_internal cfg read_image resolve results)) =
  if config_of m cfg then written m r else results_of m results.
Proof.
  intros -> Hr. unfold ps_scan_internal. rewrite Hr. cbv zeta. simpl snd.
  rewrite !handle_results_of, handle_engine_version_results_of. simpl.
  destruct m; simpl; rewrite ?andb_false_r, ?andb_true_r; reflexivity.
Qed.

Lemma ps_scan_internal_engine_version {Exe} cfg (read_image : option Exe) resolve exe r
    results :
  read_image = Some exe -> resolve exe = Some r ->
  engine_version (snd (ps_scan_internal cfg read_image resolve results)) =
  if c_engine_version cfg then
    match r_engine_version r with
    | Ok ev => {| major := ev_major ev; minor := ev_minor ev |}
    | Err _ => engine_version results
    end
  else engine_version results.
Proof.
  intros -> Hr. unfold ps_scan_internal. rewrite Hr. cbv zeta. simpl snd.
  rewrite !handle_engine_version_of. unfold handle_engine_version.
  destruct (c_engine_version cfg), (r_engine_version r); reflexivity.
Qed.

(** A scan that did not run leaves the results as they were. *)
Lemma ps_scan_internal_early {Exe} cfg (read_image : option Exe) resolve results :
  (read_image = None \/ exists exe, read_image = Some exe /\ resolve exe = None) ->
  ps_scan_internal cfg read_image resolve results = (false, results).
Proof.
  intros [-> | (exe & -> & Hr)]; unfold ps_scan_internal; [reflexivity|].
  rewrite Hr. reflexivity.
Qed.

(** C1: when the image is read and the composite resolution runs, [ps_scan]
    returns [true] exactly when no slot that is requested and is not one of
    the four optional slots ([ftext_fstring], [fuobject_hash_tables_get],
    [gnatives], [console_manager_singleton]) failed; the engine-version slot
    counts as mandatory. *)
Theorem ps_scan_mandatory_only_failure {Exe} cfg (read_image : option Exe) resolve exe
    resolution results
    (Hread : read_image = Some exe) (Hres : resolve exe = Some resolution) :
  fst (ps_scan cfg read_image resolve results) = true <->
  (c_engine_version cfg = true -> is_err (r_engine_version resolution) = false) /\
  (forall m, config_of m cfg = true -> claimed_optional m = false ->
             is_err (resolution_of m resolution) = false).
Proof.
  rewrite fst_ps_scan, (ps_scan_internal_verdict _ _ _ exe resolution) by assumption.
  rewrite andb_true_iff, negb_true_iff, forallb_forall.
  split.
  - intros [Hev Hm]. split.
    + intros Hc. rewrite Hc in Hev. exact Hev.
    + intros m Hc Ho.
      assert (Hin : In m all_members) by (destruct m; simpl; tauto).
      specialize (Hm m Hin). rewrite Hc, Ho in Hm. simpl in Hm.
      apply negb_true_iff in Hm. exact Hm.
  - intros [Hev Hm]. split.
    + destruct (c_engine_version cfg) eqn:Hc; [rewrite (Hev eq_refl)|]; reflexivity.
    + intros m _.
      destruct (config_of m cfg) eqn:Hc, (claimed_optional m) eqn:Ho; try reflexivity.
      simpl. rewrite (Hm m Hc Ho). reflexivity.
Qed.

(** Witness of C1: everything requested, the four optional slots failing:
    [ps_scan] succeeds and the four optional fields read 0. *)
Lemma ps_scan_mandatory_only_failure_witness :
  fst (ps_scan cfg_all (Some tt) (fun _ => Some resolution_optional_fail)
         results_prefilled) = true /\
  (let r := snd (ps_scan cfg_all (Some tt) (fun _ => Some resolution_optional_fail)
                   results_prefilled) in
   ftext_fstring r = 0 /\ fuobject_hash_tables_get r = 0 /\ gnatives r = 0 /\
   console_manager_singleton r = 0).
Proof.
  split.
  - apply (proj2 (ps_scan_mandatory_only_failure cfg_all (Some tt) _ tt
                    resolution_optional_fail results_prefilled eq_refl eq_refl)).
    split.
    + intros _. reflexivity.
    + intros m _ Ho. destruct m; try discriminate Ho; reflexivity.
  - vm_compute. repeat split.
Defined.

(** C2 (code bug): when the composite resolution runs, every requested
    address slot whose resolver fails reads 0 afterwards, as the [Err] arm
    of [handle!] writes; but a requested engine-version slot whose resolver
    fails is never written: it keeps the caller's value, so it is zero only
    if the caller left it zero, and [ps_scan] returns [false]. *)
Theorem ps_scan_failed_slots {Exe} cfg (read_image : option Exe) resolve exe
    resolution results
    (Hread : read_image = Some exe) (Hres : resolve exe = Some resolution) :
  (forall m, config_of m cfg = true -> is_err (resolution_of m resolution) = true ->
             results_of m (snd (ps_scan cfg read_image resolve results)) = 0) /\
  (c_engine_version cfg = true -> is_err (r_engine_version resolution) = true ->
   engine_version (snd (ps_scan cfg read_image resolve results)) = engine_version results /\
   fst (ps_scan cfg read_image resolve results) = false).
Proof.
  rewrite snd_ps_scan, fst_ps_scan. split.
  - intros m Hc He.
    rewrite (ps_scan_internal_results_of _ _ _ exe resolution) by assumption.
    rewrite Hc. unfold written. destruct (resolution_of m resolution); [discriminate|].
    reflexivity.
  - intros Hc He.
    rewrite (ps_scan_internal_engine_version _ _ _ exe resolution) by assumption.
    rewrite (ps_scan_internal_verdict _ _ _ exe resolution) by assumption.
    rewrite Hc, He. destruct (r_engine_version resolution); [discriminate|].
    split; reflexivity.
Qed.

(** Witness of C2: everything requested, everything failing, over a
    results struct the caller filled with non-zero values: [GMalloc] is
    zeroed, the engine version stays 4.27 instead of 0.0. *)
Lemma ps_scan_failed_slots_witness :
  results_of GMalloc (snd (ps_scan cfg_all (Some tt) (fun _ => Some resolution_all_fail)
                             results_prefilled)) = 0 /\
  engine_version (snd (ps_scan cfg_all (Some tt) (fun _ => Some resolution_all_fail)
                         results_prefilled)) = engine_version results_prefilled /\
  engine_version results_prefilled <> {| major := 0; minor := 0 |}.
Proof.
  destruct (ps_scan_failed_slots cfg_all (Some tt) (fun _ => Some resolution_all_fail) tt
              resolution_all_fail results_prefilled eq_refl eq_refl) as [Hm Hev].
  split; [|split].
  - apply Hm; reflexivity.
  - apply Hev; reflexivity.
  - discriminate.
Defined.

(** C9: a slot whose [ScanConfig] flag is false is never written: after
    [ps_scan], whatever happened, it holds the caller's value. *)
Theorem ps_scan_unrequested_slots_untouched {Exe} cfg (read_image : option Exe) resolve
    results :
  (forall m, config_of m cfg = false ->
             results_of m (snd (ps_scan cfg read_image resolve results)) =
             results_of m results) /\
  (c_engine_version cfg = false ->
   engine_version (snd (ps_scan cfg read_image resolve results)) = engine_version results).
Proof.
  rewrite snd_ps_scan.
  destruct read_image as [exe|] eqn:Hread; [destruct (resolve exe) as [r|] eqn:Hr|].
  - split.
    + intros m Hc. rewrite (ps_scan_internal_results_of _ _ _ exe r) by first [reflexivity | assumption].
      rewrite Hc. reflexivity.
    + intros Hc. rewrite (ps_scan_internal_engine_version _ _ _ exe r) by first [reflexivity | assumption].
      rewrite Hc. reflexivity.
  - rewrite ps_scan_internal_early by eauto. split; reflexivity.
  - rewrite ps_scan_internal_early by eauto. split; reflexivity.
Qed.

(** ** The raw scans *)

Lemma fold_extend_elems {A} (f : A -> list Z) l acc :
  vec_elems (fold_left (fun v s => Vec_extend v (f s)) l acc) =
  vec_elems acc ++ concat (map f l).
Proof.
  revert acc. induction l as [|x l IH]; intros acc; simpl.
  - rewrite app_nil_r. reflexivity.
  - rewrite IH. simpl. rewrite app_assoc. reflexivity.
Qed.

Lemma collect_pattern_concat scan_one pattern exe :
  vec_elems (collect_pattern scan_one pattern exe) = concat_sections scan_one pattern exe.
Proof.
  exact (fold_extend_elems (fun section => scan_one pattern (address section) (data section))
           exe Vec_new).
Qed.

Lemma collect_xref_concat xref_one xref exe :
  vec_elems (collect_xref xref_one xref exe) = concat_sections xref_one xref exe.
Proof.
  exact (fold_extend_elems (fun section => xref_one xref (address section) (data section))
           exe Vec_new).
Qed.

(** The shape of a [Vec] built by [Vec::new] and [extend]: unallocated
    while empty; otherwise room for its elements and at least the minimum
    non-zero capacity. *)
Definition vec_ok (v : Vec) : Prop :=
  (vec_elems v = [] /\ vec_cap v = 0%nat) \/
  (length (vec_elems v) <= vec_cap v /\ 4 <= vec_cap v)%nat.

Lemma Vec_extend_ok v xs : vec_ok v -> vec_ok (Vec_extend v xs).
Proof.
  destruct v as [es c]. unfold vec_ok, Vec_extend, grow_amortized. simpl.
  rewrite length_app.
  intros [[-> ->] | [Hl H4]].
  - destruct xs as [|x xs]; [left; split; reflexivity|].
    right. simpl. destruct (S (length xs) <=? 0)%nat eqn:E; [apply Nat.leb_le in E; lia|]. lia.
  - right. destruct (length es + length xs <=? c)%nat eqn:E.
    + apply Nat.leb_le in E. lia.
    + lia.
Qed.

Lemma fold_extend_ok {A} (f : A -> list Z) l acc :
  vec_ok acc -> vec_ok (fold_left (fun v s => Vec_extend v (f s)) l acc).
Proof.
  revert acc. induction l as [|x l IH]; intros acc H; simpl; [exact H|].
  apply IH, Vec_extend_ok, H.
Qed.

Lemma collect_pattern_ok scan_one pattern exe : vec_ok (collect_pattern scan_one pattern exe).
Proof.
  exact (fold_extend_ok (fun section => scan_one pattern (address section) (data section))
           exe Vec_new (or_introl (conj eq_refl eq_refl))).
Qed.

Lemma collect_xref_ok xref_one xref exe : vec_ok (collect_xref xref_one xref exe).
Proof.
  exact (fold_extend_ok (fun section => xref_one xref (address section) (data section))
           exe Vec_new (or_introl (conj eq_refl eq_refl))).
Qed.

Lemma ps_scan_pattern_shape scan_one Pattern_new read_image pattern_str results count m :
  ps_scan_pattern scan_one Pattern_new read_image pattern_str results count m =
  scan_shape (collect_pattern scan_one)
    (compiled_pattern Pattern_new pattern_str results count) read_image results count m.
Proof.
  unfold ps_scan_pattern, compiled_pattern, scan_shape.
  destruct pattern_str as [s|]; [|reflexivity].
  destruct (is_null results || is_null count); [reflexivity|].
  destruct (to_str s); simpl; [|reflexivity].
  destruct (Pattern_new _), read_image; reflexivity.
Qed.

Lemma ps_scan_string_shape scan_one read_image search_str results count m :
  ps_scan_string scan_one read_image search_str results count m =
  scan_shape (collect_pattern scan_one)
    (compiled_string search_str results count) read_image results count m.
Proof.
  unfold ps_scan_string, compiled_string, scan_shape.
  destruct search_str as [s|]; [|reflexivity].
  destruct (is_null results || is_null count); [reflexivity|].
  destruct (Pattern_from_bytes s), read_image; reflexivity.
Qed.

Lemma ps_scan_wstring_shape scan_one read_image search_str results count m :
  ps_scan_wstring scan_one read_image search_str results count m =
  scan_shape (collect_pattern scan_one)
    (compiled_wstring search_str results count) read_image results count m.
Proof.
  unfold ps_scan_wstring, compiled_wstring, scan_shape.
  destruct search_str as [u|]; [|reflexivity].
  destruct (is_null results || is_null count); [reflexivity|].
  cbv zeta. destruct (Pattern_from_bytes _), read_image; reflexivity.
Qed.

Lemma ps_scan_xref_shape xref_one read_image target_address results count m :
  ps_scan_xref xref_one read_image target_address results count m =
  scan_shape (collect_xref xref_one)
    (compiled_xref target_address results count) read_image results count m.
Proof.
  unfold ps_scan_xref, compiled_xref, scan_shape.
  destruct (is_null results || is_null count); [reflexivity|].
  destruct read_image; reflexivity.
Qed.

Lemma hand_off_hands_over all results count m :
  results <> count -> hands_over (hand_off all results count m) results count (vec_elems all).
Proof.
  intros Hne. unfold hand_off, hands_over, write.
  destruct all as [[|x xs] c]; simpl.
  - split.
    + rewrite lookup_insert_ne by congruence. apply lookup_insert_eq.
    + exists 0. split; [apply lookup_insert_eq | reflexivity].
  - split.
    + rewrite lookup_insert_ne by congruence. apply lookup_insert_eq.
    + eexists. split; [apply lookup_insert_eq|]. simpl. rewrite lookup_insert_eq.
      reflexivity.
Qed.

Lemma scan_shape_true {Spec} (collect : Spec -> Image -> Vec) spec read_image
    results count m m' :
  scan_shape collect spec read_image results count m = (true, m') ->
  exists sp exe, spec = Some sp /\ read_image = Some exe /\
                 m' = hand_off (collect sp exe) results count m.
Proof.
  unfold scan_shape. destruct spec as [sp|], read_image as [exe|]; try discriminate.
  intros [= <-]. eauto.
Qed.

Lemma scan_shape_false {Spec} (collect : Spec -> Image -> Vec) spec read_image
    results count m m' :
  scan_shape collect spec read_image results count m = (false, m') -> m' = m.
Proof.
  unfold scan_shape. destruct spec, read_image; congruence.
Qed.

Lemma scan_shape_empty {Spec} (collect : Spec -> Image -> Vec) spec read_image
    results count m sp exe :
  spec = Some sp -> read_image = Some exe -> results <> count -> vec_elems (collect sp exe) = [] ->
  exists m', scan_shape collect spec read_image results count m = (true, m') /\
             words m' !! count = Some 0 /\ words m' !! results = Some 0.
Proof.
  intros -> -> Hne Hc. eexists. split; [reflexivity|].
  unfold hand_off, write. rewrite Hc. simpl. split.
  - rewrite lookup_insert_ne by congruence. apply lookup_insert_eq.
  - apply lookup_insert_eq.
Qed.

(** C6 (against [Pattern::from_bytes] as the spec describes it): a wide
    string whose first code unit is the terminator makes [ps_scan_wstring]
    return [false] with the memory untouched: no buffer, no count. *)
Theorem ps_scan_wstring_empty_fails scan_one read_image rest results count m :
  ps_scan_wstring scan_one read_image (Some (0 :: rest)) results count m = (false, m).
Proof.
  unfold ps_scan_wstring. destruct (is_null results || is_null count); reflexivity.
Qed.

(** C7: on success, each of the four raw scans hands over (count cell and
    buffer) the concatenation, in section order, of the engine's results
    for the one compiled specification, section by section. *)
Theorem raw_scans_concatenate_sections scan_one xref_one Pattern_new read_image :
  (forall pattern_str results count m m', results <> count ->
     ps_scan_pattern scan_one Pattern_new read_image pattern_str results count m = (true, m') ->
     exists exe pattern, read_image = Some exe /\
       compiled_pattern Pattern_new pattern_str results count = Some pattern /\
       hands_over m' results count (concat_sections scan_one pattern exe)) /\
  (forall search_str results count m m', results <> count ->
     ps_scan_string scan_one read_image search_str results count m = (true, m') ->
     exists exe pattern, read_image = Some exe /\
       compiled_string search_str results count = Some pattern /\
       hands_over m' results count (concat_sections scan_one pattern exe)) /\
  (forall search_str results count m m', results <> count ->
     ps_scan_wstring scan_one read_image search_str results count m = (true, m') ->
     exists exe pattern, read_image = Some exe /\
       compiled_wstring search_str results count = Some pattern /\
       hands_over m' results count (concat_sections scan_one pattern exe)) /\
  (forall target_address results count m m', results <> count ->
     ps_scan_xref xref_one read_image target_address results count m = (true, m') ->
     exists exe, read_image = Some exe /\
       hands_over m' results count
         (concat_sections xref_one {| xref_target := target_address |} exe)).
Proof.
  split; [|split; [|split]].
  - intros s results count m m' Hne H.
    rewrite ps_scan_pattern_shape in H.
    apply scan_shape_true in H as (sp & exe & Hsp & Hexe & ->).
    exists exe, sp. rewrite <- collect_pattern_concat. auto using hand_off_hands_over.
  - intros s results count m m' Hne H.
    rewrite ps_scan_string_shape in H.
    apply scan_shape_true in H as (sp & exe & Hsp & Hexe & ->).
    exists exe, sp. rewrite <- collect_pattern_concat. auto using hand_off_hands_over.
  - intros s results count m m' Hne H.
    rewrite ps_scan_wstring_shape in H.
    apply scan_shape_true in H as (sp & exe & Hsp & Hexe & ->).
    exists exe, sp. rewrite <- collect_pattern_concat. auto using hand_off_hands_over.
  - intros t results count m m' Hne H.
    rewrite ps_scan_xref_shape in H.
    apply scan_shape_true in H as (sp & exe & Hsp & Hexe & ->).
    exists exe. split; [exact Hexe|].
    unfold compiled_xref in Hsp. destruct (is_null results || is_null count); [discriminate|].
    injection Hsp as <-. rewrite <- collect_xref_concat. auto using hand_off_hands_over.
Qed.

(** C8: [ps_free_results] on a null pointer or with a zero count frees
    nothing and leaves the memory as it was. *)
Theorem ps_free_results_null_or_zero_noop results count m
    (H : results = 0 \/ count = 0%nat) :
  ps_free_results results count m = Some m.
Proof.
  unfold ps_free_results.
  destruct H as [-> | ->]; simpl; [reflexivity|].
  rewrite andb_false_r. reflexivity.
Qed.

(** Witness of C8: a zero count at the address of a live buffer. *)
Lemma ps_free_results_null_or_zero_noop_witness :
  ps_free_results 1 0 sample_mem = Some sample_mem.
Proof. apply ps_free_results_null_or_zero_noop. right. reflexivity. Defined.

(** C10: a raw scan that compiles its specification, reads the image and
    finds nothing returns [true], writes [0] to the count and a null
    pointer to the results; a raw scan that returns [false] writes
    nothing. *)
Theorem raw_scans_empty_result_is_success scan_one xref_one Pattern_new read_image :
  (forall pattern_str results count m pattern exe,
     compiled_pattern Pattern_new pattern_str results count = Some pattern ->
     read_image = Some exe -> results <> count ->
     concat_sections scan_one pattern exe = [] ->
     exists m', ps_scan_pattern scan_one Pattern_new read_image pattern_str results count m
                = (true, m') /\
                words m' !! count = Some 0 /\ words m' !! results = Some 0) /\
  (forall pattern_str results count m m',
     ps_scan_pattern scan_one Pattern_new read_image pattern_str results count m = (false, m') ->
     m' = m) /\
  (forall search_str results count m pattern exe,
     compiled_string search_str results count = Some pattern ->
     read_image = Some exe -> results <> count ->
     concat_sections scan_one pattern exe = [] ->
     exists m', ps_scan_string scan_one read_image search_str results count m = (true, m') /\
                words m' !! count = Some 0 /\ words m' !! results = Some 0) /\
  (forall search_str results count m m',
     ps_scan_string scan_one read_image search_str results count m = (false, m') -> m' = m) /\
  (forall search_str results count m pattern exe,
     compiled_wstring search_str results count = Some pattern ->
     read_image = Some exe -> results <> count ->
     concat_sections scan_one pattern exe = [] ->
     exists m', ps_scan_wstring scan_one read_image search_str results count m = (true, m') /\
                words m' !! count = Some 0 /\ words m' !! results = Some 0) /\
  (forall search_str results count m m',
     ps_scan_wstring scan_one read_image search_str results count m = (false, m') -> m' = m) /\
  (forall target_address results count m exe,
     is_null results = false -> is_null count = false ->
     read_image = Some exe -> results <> count ->
     concat_sections xref_one {| xref_target := target_address |} exe = [] ->
     exists m', ps_scan_xref xref_one read_image target_address results count m = (true, m') /\
                words m' !! count = Some 0 /\ words m' !! results = Some 0) /\
  (forall target_address results count m m',
     ps_scan_xref xref_one read_image target_address results count m = (false, m') -> m' = m).
Proof.
  repeat split.
  - intros s results count m sp exe Hsp Hexe Hne Hc.
    rewrite ps_scan_pattern_shape.
    eapply scan_shape_empty; eauto. rewrite collect_pattern_concat. exact Hc.
  - intros s results count m m' H. rewrite ps_scan_pattern_shape in H.
    eapply scan_shape_false; eauto.
  - intros s results count m sp exe Hsp Hexe Hne Hc.
    rewrite ps_scan_string_shape.
    eapply scan_shape_empty; eauto. rewrite collect_pattern_concat. exact Hc.
  - intros s results count m m' H. rewrite ps_scan_string_shape in H.
    eapply scan_shape_false; eauto.
  - intros s results count m sp exe Hsp Hexe Hne Hc.
    rewrite ps_scan_wstring_shape.
    eapply scan_shape_empty; eauto. rewrite collect_pattern_concat. exact Hc.
  - intros s results count m m' H. rewrite ps_scan_wstring_shape in H.
    eapply scan_shape_false; eauto.
  - intros t results count m exe Hr Hc0 Hexe Hne Hc.
    rewrite ps_scan_xref_shape.
    eapply scan_shape_empty; eauto.
    + unfold compiled_xref. rewrite Hr, Hc0. reflexivity.
    + rewrite collect_xref_concat. exact Hc.
  - intros t results count m m' H. rewrite ps_scan_xref_shape in H.
    eapply scan_shape_false; eauto.
Qed.

(** ** Named resolution *)

Lemma collect_names_valid i (names : list (list byte)) :
  Forall (fun n => utf8_valid n = true) names ->
  collect_names i (map Some names ++ [None]) = zip (seq i (length names)) names.
Proof.
  intros Hv. revert i. induction Hv as [|n names Hn Hv IH]; intros i; [reflexivity|].
  simpl. unfold to_str. rewrite Hn, IH. reflexivity.
Qed.

Lemma split_known_fold resolvers (L : list (nat * list byte)) gs is o :
  fold_left (split_known_step resolvers) L (gs, is, o) =
  (gs ++ map (fun p => getter p.2) (known_entries resolvers L),
   is ++ (known_entries resolvers L).*1,
   unknown_zeros resolvers L o).
Proof.
  revert gs is o. induction L as [|[i n] L IH]; intros gs is o; simpl.
  - rewrite !app_nil_r. reflexivity.
  - unfold known_entries, unknown_zeros in *. simpl.
    destruct (find_resolver resolvers n) as [r|]; simpl; rewrite IH;
      rewrite <- ?app_assoc; reflexivity.
Qed.

Lemma zip_map_map {A B} (K : list A) (f : A -> nat) (g : A -> B) :
  zip (map f K) (map g K) = map (fun x => (f x, g x)) K.
Proof. induction K as [|x K IH]; [reflexivity|]. cbn. f_equal. exact IH. Qed.

Lemma fill_results_notin (W : list (nat * result Resolution)) o j :
  j ∉ W.*1 -> fill_results W o !! j = o !! j.
Proof.
  unfold fill_results. revert o. induction W as [|[i v] W IH]; intros o Hj; simpl; [reflexivity|].
  rewrite IH.
  - apply lookup_insert_ne. intros ->. apply Hj. simpl. left.
  - intros Hin. apply Hj. simpl. right. exact Hin.
Qed.

Lemma fill_results_in (W : list (nat * result Resolution)) o j v :
  NoDup W.*1 -> (j, v) ∈ W -> fill_results W o !! j = Some (addr_of v).
Proof.
  unfold fill_results. revert o. induction W as [|[i w] W IH]; intros o Hnd Hin; simpl.
  - apply elem_of_nil in Hin. contradiction.
  - simpl in Hnd. apply NoDup_cons in Hnd as [Hi Hnd].
    apply elem_of_cons in Hin as [Heq | Hin].
    + injection Heq as <- <-. fold (fill_results W (<[j := addr_of v]> o)).
      rewrite fill_results_notin by exact Hi. apply lookup_insert_eq.
    + apply IH; assumption.
Qed.

Lemma nodup_fst_same {A} (L : list (nat * A)) j a b :
  NoDup L.*1 -> (j, a) ∈ L -> (j, b) ∈ L -> a = b.
Proof.
  induction L as [|[i c] L IH]; intros Hnd Ha Hb.
  - apply elem_of_nil in Ha. contradiction.
  - simpl in Hnd. apply NoDup_cons in Hnd as [Hi Hnd].
    apply elem_of_cons in Ha as [Ha | Ha], Hb as [Hb | Hb].
    + congruence.
    + injection Ha as <- <-. exfalso. apply Hi.
      apply list_elem_of_fmap. exists (j, b). split; [reflexivity | exact Hb].
    + injection Hb as <- <-. exfalso. apply Hi.
      apply list_elem_of_fmap. exists (j, a). split; [reflexivity | exact Ha].
    + apply IH; assumption.
Qed.

Lemma fst_map_pair {A B C} (K : list (A * B)) (g : A * B -> C) :
  (map (fun x => (x.1, g x)) K).*1 = K.*1.
Proof. induction K as [|x K IH]; [reflexivity|]. cbn. f_equal. exact IH. Qed.

Lemma unknown_zeros_notin resolvers (L : list (nat * list byte)) o j :
  j ∉ L.*1 -> unknown_zeros resolvers L o !! j = o !! j.
Proof.
  unfold unknown_zeros. revert o.
  induction L as [|[i n] L IH]; intros o Hj; simpl; [reflexivity|].
  rewrite IH.
  - destruct (find_resolver resolvers n); [reflexivity|].
    apply lookup_insert_ne. intros ->. apply Hj. simpl. left.
  - intros Hin. apply Hj. simpl. right. exact Hin.
Qed.

Lemma unknown_zeros_in resolvers (L : list (nat * list byte)) o j n :
  NoDup L.*1 -> (j, n) ∈ L -> find_resolver resolvers n = None ->
  unknown_zeros resolvers L o !! j = Some 0.
Proof.
  unfold unknown_zeros. revert o.
  induction L as [|[i m] L IH]; intros o Hnd Hin Hn; simpl.
  - apply elem_of_nil in Hin. contradiction.
  - simpl in Hnd. apply NoDup_cons in Hnd as [Hi Hnd].
    apply elem_of_cons in Hin as [Heq | Hin].
    + injection Heq as <- <-. rewrite Hn.
      fold (unknown_zeros resolvers L (<[j := 0]> o)).
      rewrite unknown_zeros_notin by exact Hi. apply lookup_insert_eq.
    + apply IH; assumption.
Qed.

Lemma known_entries_in resolvers (L : list (nat * list byte)) j n r :
  (j, n) ∈ L -> find_resolver resolvers n = Some r -> (j, r) ∈ known_entries resolvers L.
Proof.
  intros Hin Hn. unfold known_entries. apply list_elem_of_omap.
  exists (j, n). split; [exact Hin|]. simpl. rewrite Hn. reflexivity.
Qed.

Lemma known_entries_fst resolvers (L : list (nat * list byte)) j :
  j ∈ (known_entries resolvers L).*1 ->
  exists n r, (j, n) ∈ L /\ find_resolver resolvers n = Some r.
Proof.
  intros Hj. apply list_elem_of_fmap in Hj as ([j' r] & Hj' & Hin). simpl in Hj'. subst j'.
  unfold known_entries in Hin. apply list_elem_of_omap in Hin as ([i n] & HinL & Hf).
  simpl in Hf. destruct (find_resolver resolvers n) as [r'|] eqn:E; [|discriminate].
  simpl in Hf. injection Hf as -> ->. eauto.
Qed.

Lemma known_entries_nodup resolvers (L : list (nat * list byte)) :
  NoDup L.*1 -> NoDup (known_entries resolvers L).*1.
Proof.
  induction L as [|[i n] L IH]; intros Hnd; [constructor|].
  simpl in Hnd. apply NoDup_cons in Hnd as [Hi Hnd].
  unfold known_entries. simpl. destruct (find_resolver resolvers n) as [r|]; simpl.
  - apply NoDup_cons. split; [|apply IH; exact Hnd].
    intros Hin. apply known_entries_fst in Hin as (m & r' & HinL & _).
    apply Hi. apply list_elem_of_fmap. exists (i, m). split; [reflexivity | exact HinL].
  - apply IH. exact Hnd.
Qed.

Lemma known_entries_notin resolvers (L : list (nat * list byte)) j n :
  NoDup L.*1 -> (j, n) ∈ L -> find_resolver resolvers n = None ->
  j ∉ (known_entries resolvers L).*1.
Proof.
  intros Hnd Hin Hn Hk. apply known_entries_fst in Hk as (m & r & HinL & Hm).
  assert (n = m) as <- by (eapply nodup_fst_same; eassumption). congruence.
Qed.

(** [ps_resolve_batch] over UTF-8 names with a readable image: it returns
    the number of names, writes every slot below it with the name's
    expected address at the name's own index, and nothing beyond. *)
Lemma ps_resolve_batch_valid resolvers resolve_one exe (xs : list (list byte)) out :
  Forall (fun n => utf8_valid n = true) xs ->
  exists out',
    ps_resolve_batch resolvers resolve_one (Some exe) (Some (map Some xs ++ [None]))
      (Some out) = (length xs, Some out') /\
    (forall j n, xs !! j = Some n ->
                 out' !! j = Some (expected_addr resolvers resolve_one exe n)) /\
    (forall j, (length xs <= j)%nat -> out' !! j = out !! j).
Proof.
  intros Hv. unfold ps_resolve_batch. rewrite collect_names_valid by exact Hv.
  set (L := zip (seq 0 (length xs)) xs).
  assert (HL1 : L.*1 = seq 0 (length xs)) by (apply fst_zip; rewrite length_seq; lia).
  assert (Hnd : NoDup L.*1) by (rewrite HL1; apply NoDup_seq).
  assert (Hlen : length L = length xs)
    by (rewrite <- (length_fmap fst L), HL1, length_seq; reflexivity).
  assert (Hmem : forall j n, xs !! j = Some n -> (j, n) ∈ L).
  { intros j n Hj. apply list_elem_of_lookup_2 with j. unfold L.
    rewrite lookup_zip_with, lookup_seq_lt by (eapply lookup_lt_Some; eassumption).
    simpl. rewrite Hj. reflexivity. }
  unfold split_known. rewrite split_known_fold. simpl.
  unfold resolve_many. rewrite map_map, zip_map_map.
  set (K := known_entries resolvers L).
  set (W := map (fun x => (x.1, resolve_one exe (getter x.2))) K).
  assert (HW1 : W.*1 = K.*1) by apply fst_map_pair.
  assert (HndK : NoDup K.*1) by (apply known_entries_nodup; exact Hnd).
  exists (fill_results W (unknown_zeros resolvers L out)).
  split; [rewrite Hlen; reflexivity|]. split.
  - intros j n Hj. unfold expected_addr.
    destruct (find_resolver resolvers n) as [r|] eqn:Hn.
    + apply fill_results_in; [rewrite HW1; exact HndK|].
      unfold W. apply list_elem_of_In.
      apply (in_map (fun x => (x.1, resolve_one exe (getter x.2))) K (j, r)).
      apply list_elem_of_In. apply known_entries_in with n; [apply Hmem|]; assumption.
    + rewrite fill_results_notin.
      * apply unknown_zeros_in with n; [exact Hnd | apply Hmem; exact Hj | exact Hn].
      * rewrite HW1. apply known_entries_notin with n; [exact Hnd | apply Hmem; exact Hj | exact Hn].
  - intros j Hj.
    assert (HjL : j ∉ L.*1) by (rewrite HL1, elem_of_seq; lia).
    assert (HjW : j ∉ W.*1).
    { rewrite HW1. intros Hk. apply known_entries_fst in Hk as (m & r & HinL & _).
      apply HjL, list_elem_of_fmap. exists (j, m). split; [reflexivity | exact HinL]. }
    rewrite fill_results_notin by exact HjW. apply unknown_zeros_notin. exact HjL.
Qed.

(** C3 fails on a name that is not UTF-8 (evaluation at the failing
    input): [ps_resolve_batch] drops it from [names], returns [1] for an
    array of two names, and never writes slot [0], below the count. *)
Theorem ps_resolve_batch_non_utf8_slot_unwritten resolvers resolve_one exe :
  exists out',
    ps_resolve_batch resolvers resolve_one (Some exe)
      (Some [Some [Byte.xff]; Some (list_byte_of_string "GMalloc"); None]) (Some ∅)
    = (1%nat, Some out') /\ out' !! 0%nat = None.
Proof.
  unfold ps_resolve_batch. simpl. unfold split_known. simpl.
  destruct (find_resolver resolvers _) as [r|]; simpl; eexists; (split; [reflexivity|]).
  - unfold fill_results. simpl. rewrite lookup_insert_ne by lia. apply lookup_empty.
  - unfold fill_results. simpl. rewrite lookup_insert_ne by lia. apply lookup_empty.
Qed.

(** C4: one unknown name, one known name whose resolver fails, one known
    name whose resolver finds [a], in any order: [ps_resolve_batch]
    returns 3 and writes 0, 0 and [a] at the names' own indices. *)
Theorem ps_resolve_batch_mixed resolvers resolve_one exe (u f s : list byte) rf rs e res a
    (xs : list (list byte)) out
    (Hu : find_resolver resolvers u = None)
    (Hf : find_resolver resolvers f = Some rf) (Hfe : resolve_one exe (getter rf) = Err e)
    (Hs : find_resolver resolvers s = Some rs) (Hsr : resolve_one exe (getter rs) = Ok res)
    (Ha : get res = Some a)
    (Hvu : utf8_valid u = true) (Hvf : utf8_valid f = true) (Hvs : utf8_valid s = true)
    (Hperm : xs ≡ₚ [u; f; s]) :
  exists out',
    ps_resolve_batch resolvers resolve_one (Some exe) (Some (map Some xs ++ [None]))
      (Some out) = (3%nat, Some out') /\
    (forall i, xs !! i = Some u -> out' !! i = Some 0) /\
    (forall i, xs !! i = Some f -> out' !! i = Some 0) /\
    (forall i, xs !! i = Some s -> out' !! i = Some a).
Proof.
  assert (Hv : Forall (fun n => utf8_valid n = true) xs).
  { rewrite Hperm. repeat constructor; assumption. }
  destruct (ps_resolve_batch_valid resolvers resolve_one exe xs out Hv)
    as (out' & Hrun & Hslots & _).
  exists out'. rewrite Hrun, (Permutation_length Hperm). split; [reflexivity|].
  unfold expected_addr in Hslots. split; [|split].
  - intros i Hi. rewrite (Hslots i u Hi), Hu. reflexivity.
  - intros i Hi. rewrite (Hslots i f Hi), Hf, Hfe. reflexivity.
  - intros i Hi. rewrite (Hslots i s Hi), Hs, Hsr. simpl. rewrite Ha. reflexivity.
Qed.

(** Witness of C4: [Foo] unknown, [GUObjectArray] failing, [GMalloc]
    found at [4096]. *)
Lemma ps_resolve_batch_mixed_witness :
  exists out',
    ps_resolve_batch sample_resolvers sample_resolve (Some [])
      (Some (map Some [list_byte_of_string "Foo"; list_byte_of_string "GUObjectArray";
                       list_byte_of_string "GMalloc"] ++ [None]))
      (Some ∅) = (3%nat, Some out') /\
    (forall i, [list_byte_of_string "Foo"; list_byte_of_string "GUObjectArray";
                list_byte_of_string "GMalloc"] !! i = Some (list_byte_of_string "Foo") ->
               out' !! i = Some 0) /\
    (forall i, [list_byte_of_string "Foo"; list_byte_of_string "GUObjectArray";
                list_byte_of_string "GMalloc"] !! i = Some (list_byte_of_string "GUObjectArray") ->
               out' !! i = Some 0) /\
    (forall i, [list_byte_of_string "Foo"; list_byte_of_string "GUObjectArray";
                list_byte_of_string "GMalloc"] !! i = Some (list_byte_of_string "GMalloc") ->
               out' !! i = Some 4096).
Proof.
  apply (ps_resolve_batch_mixed sample_resolvers sample_resolve []
           (list_byte_of_string "Foo") (list_byte_of_string "GUObjectArray")
           (list_byte_of_string "GMalloc")
           (mkResolverEntry (list_byte_of_string "GUObjectArray") 2)
           (mkResolverEntry (list_byte_of_string "GMalloc") 1)
           not_found (mkResolution (Some 4096)) 4096); reflexivity.
Defined.

(** C5: [ps_resolve_single] returns [0] without reading the image or
    running any resolver when the name is not in the registry; [0] when
    the image is unreadable or the resolver fails; and the resolver's
    address when it succeeds with one. *)
Theorem ps_resolve_single_sentinel resolvers resolve_one read_image :
  (forall bs, find_resolver resolvers bs = None ->
              ps_resolve_single resolvers resolve_one read_image (Some bs) = (0, [])) /\
  (forall bs r, find_resolver resolvers bs = Some r -> read_image = None ->
                fst (ps_resolve_single resolvers resolve_one read_image (Some bs)) = 0) /\
  (forall bs r exe e, find_resolver resolvers bs = Some r -> read_image = Some exe ->
                      resolve_one exe (getter r) = Err e ->
                      fst (ps_resolve_single resolvers resolve_one read_image (Some bs)) = 0) /\
  (forall bs r exe res a, utf8_valid bs = true ->
                          find_resolver resolvers bs = Some r -> read_image = Some exe ->
                          resolve_one exe (getter r) = Ok res -> get res = Some a ->
                          fst (ps_resolve_single resolvers resolve_one read_image (Some bs)) = a).
Proof.
  unfold ps_resolve_single, to_str. split; [|split; [|split]].
  - intros bs Hn. destruct (utf8_valid bs); [rewrite Hn|]; reflexivity.
  - intros bs r Hn ->. destruct (utf8_valid bs); [rewrite Hn|]; reflexivity.
  - intros bs r exe e Hn -> He. destruct (utf8_valid bs); [|reflexivity].
    rewrite Hn. simpl. rewrite He. reflexivity.
  - intros bs r exe res a Hv Hn -> Hr Ha. rewrite Hv, Hn. simpl. rewrite Hr. simpl.
    rewrite Ha. reflexivity.
Qed.

(** ** Further properties of the code *)

(** When the image cannot be read, or the composite resolution itself
    fails, [ps_scan] returns [false] and writes nothing to [results]. *)
Theorem ps_scan_no_image_or_resolution {Exe} cfg (read_image : option Exe) resolve results
    (H : read_image = None \/ exists exe, read_image = Some exe /\ resolve exe = None) :
  ps_scan cfg read_image resolve results = (false, results).
Proof.
  unfold ps_scan. rewrite ps_scan_internal_early by exact H. reflexivity.
Qed.

Lemma ps_scan_no_image_or_resolution_witness :
  ps_scan cfg_all (Some tt) (fun _ => None) results_prefilled = (false, results_prefilled).
Proof. apply ps_scan_no_image_or_resolution. right. exists tt. split; reflexivity. Defined.

(** Every requested slot whose resolver succeeds holds the found value
    after [ps_scan]: the address for an address slot, the major and minor
    numbers for the engine version. *)
Theorem ps_scan_found_slots {Exe} cfg (read_image : option Exe) resolve exe resolution results
    (Hread : read_image = Some exe) (Hres : resolve exe = Some resolution) :
  (forall m a, config_of m cfg = true -> resolution_of m resolution = Ok a ->
               results_of m (snd (ps_scan cfg read_image resolve results)) = a) /\
  (forall ev, c_engine_version cfg = true -> r_engine_version resolution = Ok ev ->
              engine_version (snd (ps_scan cfg read_image resolve results)) =
              {| major := ev_major ev; minor := ev_minor ev |}).
Proof.
  rewrite snd_ps_scan. split.
  - intros m a Hc Ha.
    rewrite (ps_scan_internal_results_of _ _ _ exe resolution) by assumption.
    rewrite Hc. unfold written. rewrite Ha. reflexivity.
  - intros ev Hc Hev.
    rewrite (ps_scan_internal_engine_version _ _ _ exe resolution) by assumption.
    rewrite Hc, Hev. reflexivity.
Qed.

Lemma ps_scan_found_slots_witness :
  results_of GMalloc (snd (ps_scan cfg_all (Some tt) (fun _ => Some resolution_optional_fail)
                             results_prefilled)) = 16384 /\
  engine_version (snd (ps_scan cfg_all (Some tt) (fun _ => Some resolution_optional_fail)
                         results_prefilled)) = {| major := 4; minor := 27 |}.
Proof.
  destruct (ps_scan_found_slots cfg_all (Some tt) (fun _ => Some resolution_optional_fail) tt
              resolution_optional_fail results_prefilled eq_refl eq_refl) as [Hm Hev].
  split.
  - apply Hm; reflexivity.
  - apply (Hev (mkEngineVersion 4 27)); reflexivity.
Defined.

Lemma wstr_len_terminated (us rest : list Z) :
  Forall (fun u => u <> 0) us -> wstr_len (us ++ 0 :: rest) = length us.
Proof.
  induction 1 as [|u us Hu _ IH]; [reflexivity|]. simpl.
  destruct (Z.eqb_spec u 0); [contradiction|]. rewrite IH. reflexivity.
Qed.

(** [ps_scan_wstring] reads the wide string up to its first terminator and
    never past it: what follows the terminator does not change the call. *)
Theorem ps_scan_wstring_stops_at_terminator scan_one read_image (us r1 r2 : list Z)
    results count m
    (Hus : Forall (fun u => u <> 0) us) :
  ps_scan_wstring scan_one read_image (Some (us ++ 0 :: r1)) results count m =
  ps_scan_wstring scan_one read_image (Some (us ++ 0 :: r2)) results count m.
Proof.
  unfold ps_scan_wstring. rewrite !wstr_len_terminated by exact Hus.
  rewrite !take_app_length. reflexivity.
Qed.

Lemma ps_scan_wstring_stops_at_terminator_witness :
  ps_scan_wstring (fun _ base _ => [base]) (Some [mkSection 4096 []]) (Some [65; 0]) 8 16
    sample_mem =
  ps_scan_wstring (fun _ base _ => [base]) (Some [mkSection 4096 []]) (Some [65; 0; 66; 0])
    8 16 sample_mem.
Proof.
  apply (ps_scan_wstring_stops_at_terminator _ _ [65] [] [66; 0]).
  repeat constructor. lia.
Defined.

Lemma hand_off_free_small v results count m p n :
  vec_ok v -> results <> count ->
  words (hand_off v results count m) !! results = Some p ->
  words (hand_off v results count m) !! count = Some (Z.of_nat n) ->
  (0 < n < 4)%nat ->
  ps_free_results p n (hand_off v results count m) = None.
Proof.
  intros Hok Hne Hp Hn Hsmall. unfold hand_off, write in *.
  destruct v as [[|x xs] c]; simpl in *.
  - rewrite lookup_insert_ne in Hn by congruence. rewrite lookup_insert_eq in Hn.
    injection Hn as Hn. lia.
  - rewrite lookup_insert_ne in Hn by congruence. rewrite lookup_insert_eq in Hn.
    injection Hn as Hn. rewrite lookup_insert_eq in Hp. injection Hp as <-.
    unfold vec_ok in Hok. simpl in Hok.
    destruct Hok as [[Hx _] | [_ H4]]; [discriminate|].
    unfold ps_free_results. simpl. rewrite lookup_insert_eq.
    replace (0 <? n)%nat with true by (symmetry; apply Nat.ltb_lt; lia). simpl.
    rewrite decide_False by (simpl; lia). reflexivity.
Qed.

(** The buffer a raw scan hands over is a [Vec] grown by [extend], whose
    capacity is at least four once it holds anything.  So when a raw scan
    succeeds with one, two or three results, passing the pointer and the
    count it wrote to [ps_free_results] is undefined behaviour:
    [Vec::from_raw_parts(results, count, count)] states a capacity the
    allocation does not have. *)
Theorem raw_scan_free_small_result_undefined scan_one xref_one Pattern_new read_image :
  (forall pattern_str results count m m1 p n, results <> count ->
     ps_scan_pattern scan_one Pattern_new read_image pattern_str results count m = (true, m1) ->
     words m1 !! results = Some p -> words m1 !! count = Some (Z.of_nat n) ->
     (0 < n < 4)%nat -> ps_free_results p n m1 = None) /\
  (forall search_str results count m m1 p n, results <> count ->
     ps_scan_string scan_one read_image search_str results count m = (true, m1) ->
     words m1 !! results = Some p -> words m1 !! count = Some (Z.of_nat n) ->
     (0 < n < 4)%nat -> ps_free_results p n m1 = None) /\
  (forall search_str results count m m1 p n, results <> count ->
     ps_scan_wstring scan_one read_image search_str results count m = (true, m1) ->
     words m1 !! results = Some p -> words m1 !! count = Some (Z.of_nat n) ->
     (0 < n < 4)%nat -> ps_free_results p n m1 = None) /\
  (forall target_address results count m m1 p n, results <> count ->
     ps_scan_xref xref_one read_image target_address results count m = (true, m1) ->
     words m1 !! results = Some p -> words m1 !! count = Some (Z.of_nat n) ->
     (0 < n < 4)%nat -> ps_free_results p n m1 = None).
Proof.
  split; [|split; [|split]]; intros x results count m m1 p n Hne H.
  - rewrite ps_scan_pattern_shape in H.
    apply scan_shape_true in H as (sp & exe & _ & _ & ->).
    apply hand_off_free_small; [apply collect_pattern_ok | exact Hne].
  - rewrite ps_scan_string_shape in H.
    apply scan_shape_true in H as (sp & exe & _ & _ & ->).
    apply hand_off_free_small; [apply collect_pattern_ok | exact Hne].
  - rewrite ps_scan_wstring_shape in H.
    apply scan_shape_true in H as (sp & exe & _ & _ & ->).
    apply hand_off_free_small; [apply collect_pattern_ok | exact Hne].
  - rewrite ps_scan_xref_shape in H.
    apply scan_shape_true in H as (sp & exe & _ & _ & ->).
    apply hand_off_free_small; [apply collect_xref_ok | exact Hne].
Qed.

(** Witness: a pattern scan over one section with a single match, then
    [ps_free_results(results, 1)]. *)
Lemma raw_scan_free_small_result_undefined_witness :
  ps_scan_pattern one_match_engine (fun _ => Some one_match_pattern) (Some one_match_image)
    (Some [x41]) 1 2 empty_mem =
    (true, snd (ps_scan_pattern one_match_engine (fun _ => Some one_match_pattern)
                  (Some one_match_image) (Some [x41]) 1 2 empty_mem)) /\
  ps_free_results 1 1 (snd (ps_scan_pattern one_match_engine (fun _ => Some one_match_pattern)
                              (Some one_match_image) (Some [x41]) 1 2 empty_mem)) = None.
Proof.
  split; [reflexivity|].
  apply (proj1 (raw_scan_free_small_result_undefined one_match_engine
                  (fun _ _ _ => []) (fun _ => Some one_match_pattern) (Some one_match_image))
           (Some [x41]) 1 2 empty_mem _ 1 1%nat); [lia | reflexivity | vm_compute; reflexivity
                                                  | vm_compute; reflexivity | lia].
Defined.

Lemma expected_addr_single resolvers resolve_one exe n :
  utf8_valid n = true ->
  expected_addr resolvers resolve_one exe n =
  fst (ps_resolve_single resolvers resolve_one (Some exe) (Some n)).
Proof.
  intros Hv. unfold expected_addr, ps_resolve_single, to_str. rewrite Hv.
  destruct (find_resolver resolvers n); reflexivity.
Qed.

(** [ps_resolve_batch] over UTF-8 names with a readable image returns the
    number of names, and writes at each name's index exactly what
    [ps_resolve_single] returns for that name; slots past the names are
    left alone. *)
Theorem ps_resolve_batch_agrees_with_single resolvers resolve_one exe
    (xs : list (list byte)) out
    (Hv : Forall (fun n => utf8_valid n = true) xs) :
  exists out',
    ps_resolve_batch resolvers resolve_one (Some exe) (Some (map Some xs ++ [None]))
      (Some out) = (length xs, Some out') /\
    (forall i n, xs !! i = Some n ->
       out' !! i = Some (fst (ps_resolve_single resolvers resolve_one (Some exe) (Some n)))) /\
    (forall j, (length xs <= j)%nat -> out' !! j = out !! j).
Proof.
  destruct (ps_resolve_batch_valid resolvers resolve_one exe xs out Hv)
    as (out' & Hrun & Hslots & Hrest).
  exists out'. split; [exact Hrun|]. split; [|exact Hrest].
  intros i n Hi. rewrite (Hslots i n Hi). f_equal. apply expected_addr_single.
  rewrite Forall_lookup in Hv. exact (Hv i n Hi).
Qed.

Lemma ps_resolve_batch_agrees_with_single_witness :
  exists out',
    ps_resolve_batch sample_resolvers sample_resolve (Some [])
      (Some (map Some [list_byte_of_string "GMalloc"] ++ [None])) (Some ∅)
    = (1%nat, Some out') /\
    (forall i n, [list_byte_of_string "GMalloc"] !! i = Some n ->
       out' !! i = Some (fst (ps_resolve_single sample_resolvers sample_resolve
                                (Some []) (Some n)))) /\
    (forall j, (1 <= j)%nat -> out' !! j = (∅ : gmap nat Z) !! j).
Proof.
  apply (ps_resolve_batch_agrees_with_single sample_resolvers sample_resolve []
           [list_byte_of_string "GMalloc"] ∅).
  repeat constructor.
Defined.

(** With a null name array, a null output array or an unreadable image,
    [ps_resolve_batch] returns [0] and writes nothing. *)
Theorem ps_resolve_batch_null_or_no_image resolvers resolve_one read_image resolver_names
    (results : option (gmap nat Z))
    (H : resolver_names = None \/ results = None \/ read_image = None) :
  ps_resolve_batch resolvers resolve_one read_image resolver_names results = (0%nat, results).
Proof.
  unfold ps_resolve_batch.
  destruct H as [-> | [-> | ->]]; [reflexivity | destruct resolver_names; reflexivity|].
  destruct resolver_names, results; reflexivity.
Qed.

Lemma ps_resolve_batch_null_or_no_image_witness :
  ps_resolve_batch sample_resolvers sample_resolve None
    (Some [Some (list_byte_of_string "GMalloc"); None]) (Some ∅) = (0%nat, Some ∅).
Proof. apply ps_resolve_batch_null_or_no_image. right. right. reflexivity. Defined.

Lemma collect_names_terminated i (ps : list (option (list byte))) r1 r2 :
  collect_names i (ps ++ None :: r1) = collect_names i (ps ++ None :: r2).
Proof.
  revert i. induction ps as [|[bs|] ps IH]; intros i; simpl; [reflexivity| |reflexivity].
  destruct (to_str bs); rewrite IH; reflexivity.
Qed.

(** [ps_resolve_batch] stops at the first null pointer of the name array:
    entries after it change neither the count nor the output. *)
Theorem ps_resolve_batch_stops_at_terminator resolvers resolve_one read_image
    (ps : list (option (list byte))) r1 r2 results :
  ps_resolve_batch resolvers resolve_one read_image (Some (ps ++ None :: r1)) results =
  ps_resolve_batch resolvers resolve_one read_image (Some (ps ++ None :: r2)) results.
Proof.
  unfold ps_resolve_batch. destruct results, read_image; try reflexivity.
  rewrite (collect_names_terminated 0 ps r1 r2). reflexivity.
Qed.

Lemma lookup_map_name {B} (f : ResolverEntry -> B) (rs : list ResolverEntry) i :
  map f rs !! i = f <$> rs !! i.
Proof.
  revert i. induction rs as [|r rs IH]; intros [|i]; simpl; try reflexivity. apply IH.
Qed.

Lemma copy_nonoverlapping_lookup {A} i (src : list A) (dst : gmap nat A) j :
  copy_nonoverlapping i src dst !! j =
  if decide (i <= j < i + length src)%nat then src !! (j - i)%nat else dst !! j.
Proof.
  revert i dst. induction src as [|x src IH]; intros i dst; simpl.
  - rewrite decide_False by lia. reflexivity.
  - rewrite IH. destruct (decide (j = i)) as [->|Hji].
    + rewrite decide_False by lia. rewrite decide_True by lia.
      rewrite lookup_insert_eq, Nat.sub_diag. reflexivity.
    + rewrite lookup_insert_ne by congruence.
      destruct (decide (S i <= j < S i + length src)%nat).
      * rewrite decide_True by lia. replace (j - i)%nat with (S (j - S i)) by lia.
        reflexivity.
      * rewrite decide_False by lia. reflexivity.
Qed.

(** [ps_get_resolver_names] with non-null outputs returns [true], sets the
    count to the registry's size and writes, in registry order, at indices
    [0 .. count-1] and nowhere else, a pointer to each registry name's data
    ([as_ptr], no terminator); with a null output it returns [false] and
    writes nothing. *)
Theorem ps_get_resolver_names_lists resolvers :
  (forall (out : gmap nat StrPtr) c,
     exists out',
       ps_get_resolver_names resolvers (Some out) (Some c) =
         (true, Some out', Some (length resolvers)) /\
       (forall i, (i < length resolvers)%nat ->
                  out' !! i = (fun r => as_ptr (name r)) <$> resolvers !! i) /\
       (forall j, (length resolvers <= j)%nat -> out' !! j = out !! j)) /\
  (forall names count, names = None \/ count = None ->
     ps_get_resolver_names resolvers names count = (false, names, count)).
Proof.
  split.
  - intros out c. eexists. split; [unfold ps_get_resolver_names; rewrite length_map; reflexivity|].
    split; intros i Hi; rewrite copy_nonoverlapping_lookup, length_map.
    + rewrite decide_True by lia. rewrite Nat.sub_0_r. apply lookup_map_name.
    + rewrite decide_False by lia. reflexivity.
  - intros names count [-> | ->]; [reflexivity|]. destruct names; reflexivity.
Qed.

Lemma c_bytes_cons b rest :
  c_bytes (b :: rest) = if decide (b = x00) then [] else b :: c_bytes rest.
Proof. reflexivity. Qed.

Lemma c_bytes_app_no_nul bs following :
  Forall (fun b => b <> x00) bs -> c_bytes (bs ++ following) = bs ++ c_bytes following.
Proof.
  induction 1 as [|b bs Hb _ IH]; [reflexivity|].
  rewrite <- app_comm_cons, c_bytes_cons, decide_False by exact Hb. rewrite IH. reflexivity.
Qed.

(** The pointers [ps_get_resolver_names] writes are not C strings: a C
    caller reading [names[i]] (as with [%s]) gets the registry name
    followed by whatever non-NUL bytes lie after it in memory.  Only when
    the next byte is a NUL does it read the name alone, and passing the
    pointer back to [ps_resolver_exists] then finds the resolver. *)
Theorem ps_get_resolver_names_unterminated resolvers (out : gmap nat StrPtr) c i r following
    (Hr : resolvers !! i = Some r) (Hnul : Forall (fun b => b <> x00) (name r)) :
  exists out' p,
    ps_get_resolver_names resolvers (Some out) (Some c) =
      (true, Some out', Some (length resolvers)) /\
    out' !! i = Some p /\
    c_read p following = name r ++ c_bytes following /\
    (hd_error following = Some x00 -> utf8_valid (name r) = true ->
     ps_resolver_exists resolvers (Some (c_read p following)) = true).
Proof.
  destruct (proj1 (ps_get_resolver_names_lists resolvers) out c) as (out' & Hrun & Hin & _).
  assert (Hi : (i < length resolvers)%nat) by (eapply lookup_lt_Some; exact Hr).
  exists out', (as_ptr (name r)). split; [exact Hrun|]. split.
  { rewrite Hin by exact Hi. rewrite Hr. reflexivity. }
  assert (Hread : c_read (as_ptr (name r)) following = name r ++ c_bytes following).
  { unfold c_read, as_ptr. simpl. apply c_bytes_app_no_nul, Hnul. }
  split; [exact Hread|].
  intros Hhd Hutf. rewrite Hread.
  destruct following as [|b rest]; [discriminate|]. injection Hhd as ->.
  rewrite c_bytes_cons, decide_True by reflexivity. rewrite app_nil_r.
  unfold ps_resolver_exists, to_str. rewrite Hutf. apply existsb_exists.
  exists r. split; [apply list_elem_of_In, list_elem_of_lookup_2 with i; exact Hr|].
  apply bool_decide_eq_true. reflexivity.
Qed.

(** Witness: the first entry of a two-entry registry, followed in memory
    by a NUL. *)
Lemma ps_get_resolver_names_unterminated_witness :
  exists out' p,
    ps_get_resolver_names sample_resolvers (Some ∅) (Some 0%nat) =
      (true, Some out', Some (length sample_resolvers)) /\
    out' !! 0%nat = Some p /\
    c_read p [x00] = list_byte_of_string "GMalloc" ++ c_bytes [x00] /\
    (hd_error [x00] = Some x00 -> utf8_valid (list_byte_of_string "GMalloc") = true ->
     ps_resolver_exists sample_resolvers (Some (c_read p [x00])) = true).
Proof.
  apply (ps_get_resolver_names_unterminated sample_resolvers ∅ 0 0
           (mkResolverEntry (list_byte_of_string "GMalloc") 1) [x00]).
  - reflexivity.
  - repeat constructor; discriminate.
Defined.

Lemma find_resolver_none_existsb resolvers n :
  existsb (fun r => bool_decide (name r = n)) resolvers = false ->
  find_resolver resolvers n = None.
Proof.
  unfold find_resolver. induction resolvers as [|r rs IH]; simpl; [reflexivity|].
  destruct (bool_decide (name r = n)); [discriminate|]. exact IH.
Qed.

(** A name for which [ps_resolver_exists] is [false] (null, not UTF-8, or
    not in the registry) makes [ps_resolve_single] return [0] without
    reading the image or running any resolver. *)
Theorem ps_resolve_single_when_not_exists resolvers resolve_one read_image resolver_name
    (H : ps_resolver_exists resolvers resolver_name = false) :
  ps_resolve_single resolvers resolve_one read_image resolver_name = (0, []).
Proof.
  unfold ps_resolver_exists, ps_resolve_single in *.
  destruct resolver_name as [bs|]; [|reflexivity].
  destruct (to_str bs) as [s|]; [|reflexivity].
  rewrite find_resolver_none_existsb by exact H. reflexivity.
Qed.

Lemma ps_resolve_single_when_not_exists_witness :
  ps_resolve_single sample_resolvers sample_resolve (Some [])
    (Some (list_byte_of_string "Foo")) = (0, []).
Proof. apply ps_resolve_single_when_not_exists. reflexivity. Defined.
